(** * flashlight: animation combinators and frame scheduling

    A shallow embedding of [src/flashlight.ts], [src/frame.ts],
    [src/unnamed/part_000] (the [clamp] of [util.ts]) and
    [src/unnamed/part_001] (a second copy of the draw loop and [play]).

    JavaScript numbers are modelled as rationals [Q]: every value these
    programs compute from integer and rational inputs is rational, and the
    claims are about exact arithmetic.  A JavaScript function of a number
    cannot tell apart two representations of the same rational, so where a
    statement evaluates an arbitrary animation at two [Qeq]-equal frames it
    asks that the animation [respects] [Qeq]. *)

From Stdlib Require Import QArith Qround Lqa Lia ZArith List Morphisms Sorted.
Import ListNotations.
Open Scope Q_scope.

(** ** Exceptions

    [clamp] throws; an exception thrown while evaluating an animation
    propagates out of it.  [Exc] is the result of a call that may throw. *)

Inductive Error := InvalidRange.

Inductive Exc (T : Type) : Type :=
| Ok (v : T)
| Throw (e : Error).
Arguments Ok {T} v.
Arguments Throw {T} e.

Definition bind {A B : Type} (m : Exc A) (k : A -> Exc B) : Exc B :=
  match m with
  | Ok v => k v
  | Throw e => Throw e
  end.

Notation "x <- m ;; k" := (bind m (fun x => k))
  (at level 61, m at next level, right associativity).

(** A number-valued result equal to [q] (as numbers). *)
Definition evals_to (r : Exc Q) (q : Q) : Prop :=
  match r with
  | Ok v => v == q
  | Throw _ => False
  end.

(** ** [util.ts]: [clamp] (src/unnamed/part_000) *)

(** [Math.max] and [Math.min] on two numbers. *)
Definition math_max (x y : Q) : Q := if Qle_bool y x then x else y.
Definition math_min (x y : Q) : Q := if Qle_bool x y then x else y.

(** [x > y] *)
Definition Qgtb (x y : Q) : bool := negb (Qle_bool x y).

(** [clamp(value, min, max)]: throws when [min > max], otherwise
    [Math.min(Math.max(value, min), max)]. *)
Definition clamp (value min max : Q) : Exc Q :=
  if Qgtb min max then Throw InvalidRange
  else Ok (math_min (math_max value min) max).

(** [Math.floor] on a number, as a number. *)
Definition math_floor (x : Q) : Q := inject_Z (Qfloor x).

(** JavaScript's remainder [x % y]: [x - y * trunc(x / y)].  (A zero
    divisor gives [NaN] in JavaScript; no statement below uses it.) *)
Definition trunc (q : Q) : Z :=
  if Qle_bool 0 q then Qfloor q else (- Qfloor (- q))%Z.

Definition js_rem (x y : Q) : Q := x - y * inject_Z (trunc (x / y)).

(** ** Easing ([src/easing.ts]) *)

Definition Easing := Q -> Q.

(** [linear = (t) => t] *)
Definition linear : Easing := fun t => t.

(** [t < u] *)
Definition Qltb (t u : Q) : bool := negb (Qle_bool u t).

(** The easings of [src/easing.ts] that stay in rational arithmetic
    ([Math.pow] with an integer exponent is [Qpower]; decimal literals are
    exact rationals).  The sine, exponential, circular and elastic curves
    use irrational functions and are not modelled; [easeInOutBounce] is
    cut off in the source. *)

Definition easeInQuad : Easing := fun t => t * t.
Definition easeOutQuad : Easing := fun t => 1 - (1 - t) * (1 - t).
Definition easeInOutQuad : Easing := fun t =>
  if Qltb t (1 # 2) then 2 * t * t else 1 - (-2 * t + 2) ^ 2 / 2.

Definition easeInCubic : Easing := fun t => t * t * t.
Definition easeOutCubic : Easing := fun t => 1 - (1 - t) ^ 3.
Definition easeInOutCubic : Easing := fun t =>
  if Qltb t (1 # 2) then 4 * t * t * t else 1 - (-2 * t + 2) ^ 3 / 2.

Definition easeInQuart : Easing := fun t => t * t * t * t.
Definition easeOutQuart : Easing := fun t => 1 - (1 - t) ^ 4.
Definition easeInOutQuart : Easing := fun t =>
  if Qltb t (1 # 2) then 8 * t * t * t * t else 1 - (-2 * t + 2) ^ 4 / 2.

Definition easeInQuint : Easing := fun t => t * t * t * t * t.
Definition easeOutQuint : Easing := fun t => 1 - (1 - t) ^ 5.
Definition easeInOutQuint : Easing := fun t =>
  if Qltb t (1 # 2) then 16 * t * t * t * t * t
  else 1 - (-2 * t + 2) ^ 5 / 2.

(** [c1 = 1.70158] *)
Definition back_c1 : Q := 170158 # 100000.

Definition easeInBack : Easing := fun t =>
  let c3 := back_c1 + 1 in c3 * t * t * t - back_c1 * t * t.
Definition easeOutBack : Easing := fun t =>
  let c3 := back_c1 + 1 in 1 + c3 * (t - 1) ^ 3 + back_c1 * (t - 1) ^ 2.
Definition easeInOutBack : Easing := fun t =>
  let c2 := back_c1 * (1525 # 1000) in
  if Qltb t (1 # 2) then ((2 * t) ^ 2 * ((c2 + 1) * 2 * t - c2)) / 2
  else ((2 * t - 2) ^ 2 * ((c2 + 1) * (t * 2 - 2) + c2) + 2) / 2.

(** [easeOutBounce]; [n1 * (t -= x) * t] multiplies by the updated [t]. *)
Definition easeOutBounce : Easing := fun t =>
  let n1 := 75625 # 10000 in
  let d1 := 275 # 100 in
  if Qltb t (1 / d1) then n1 * t * t
  else if Qltb t (2 / d1) then
    let t' := t - (15 # 10) / d1 in n1 * t' * t' + (75 # 100)
  else if Qltb t ((25 # 10) / d1) then
    let t' := t - (225 # 100) / d1 in n1 * t' * t' + (9375 # 10000)
  else
    let t' := t - (2625 # 1000) / d1 in n1 * t' * t' + (984375 # 1000000).

Definition easeInBounce : Easing := fun t => 1 - easeOutBounce (1 - t).

(** ** Animations

    [Animation<T>]: a function of a frame number carrying a [duration]
    property.  Evaluating it may throw. *)

Record Animation (T : Type) : Type := mkAnimation {
  run : Q -> Exc T;
  duration : Q
}.
Arguments mkAnimation {T} run duration.
Arguments run {T} a frame.
Arguments duration {T} a.

(** The value of [a] depends only on the number its frame denotes. *)
Definition respects {T : Type} (a : Animation T) : Prop :=
  forall x y, x == y -> run a x = run a y.

(** Helpers shared by both copies of [flashlight.ts]. *)

(** [frameToProgress = (frame, duration) => clamp(frame / duration, 0, 1)] *)
Definition frameToProgress (frame duration : Q) : Exc Q :=
  clamp (frame / duration) 0 1.

(** [progressToFrame = (progress, duration) => clamp(progress * duration, 0, duration)] *)
Definition progressToFrame (progress duration : Q) : Exc Q :=
  clamp (progress * duration) 0 duration.

(** [elapsedToFrame = (elapsedMs, fps) => Math.floor(elapsedMs / (1000 / fps))] *)
Definition elapsedToFrame (elapsedMs fps : Q) : Q :=
  math_floor (elapsedMs / (1000 / fps)).

(** [delay]: identical in both copies. *)
Definition delay {T : Type} (anim : Animation T) (duration0 : Q) : Animation T :=
  mkAnimation
    (fun frame => c <- clamp (frame - duration0) 0 duration0 ;; run anim c)
    (duration0 + duration anim).

(** [repeat] with a finite number of [times] (the default [Infinity] is not
    a rational and is not modelled). *)
Definition repeat {T : Type} (anim : Animation T) (times : Q) : Animation T :=
  let xduration := times * duration anim in
  mkAnimation
    (fun frame =>
       if Qle_bool xduration frame then run anim (duration anim)
       else run anim (js_rem frame (duration anim)))
    xduration.

(** [sequence(a, b)]: [a] up to and including frame [a.duration], then [b]. *)
Definition sequence {T : Type} (a b : Animation T) : Animation T :=
  mkAnimation
    (fun frame =>
       if Qle_bool frame (duration a) then run a frame
       else run b (frame - duration a))
    (duration a + duration b).

(** [track(first, ...rest) = rest.reduce(sequence, first)] *)
Definition track {T : Type} (first : Animation T) (rest : list (Animation T))
  : Animation T :=
  fold_left sequence rest first.

(** *** First copy of [flashlight.ts] (lines 1-143) *)
Module FlashlightA.

(** [lerp = (from, to, progress) => from + (to - from) * clamp(progress, 0, 1)] *)
Definition lerp (from to progress : Q) : Exc Q :=
  p <- clamp progress 0 1 ;; Ok (from + (to - from) * p).

(** [Tween<T> = (progress) => T]; it may throw. *)
Definition Tween (T : Type) : Type := Q -> Exc T.

(** [ease(tween, easing) = (progress) => tween(easing(progress))] *)
Definition ease {T : Type} (tween : Tween T) (easing : Easing) : Tween T :=
  fun progress => tween (easing progress).

(** [tween(from, to, easing) = (progress) => lerp(from, to, easing(progress))] *)
Definition tween (from to : Q) (easing : Easing) : Tween Q :=
  fun progress => lerp from to (easing progress).

(** [anim(tween, duration)]: [frame => tween(frameToProgress(frame, duration))]. *)
Definition anim {T : Type} (tween : Tween T) (duration : Q) : Animation T :=
  mkAnimation (fun frame => p <- frameToProgress frame duration ;; tween p)
    duration.

End FlashlightA.

(** *** Second copy of [flashlight.ts] (lines 145-269) *)
Module FlashlightB.

(** [lerp = (from, to, progress) =>
       from + Math.max(to - from, 0) * clamp(progress, 0, 1)] *)
Definition lerp (from to progress : Q) : Exc Q :=
  p <- clamp progress 0 1 ;; Ok (from + math_max (to - from) 0 * p).

(** [tweenWith(lerp, duration, easing)] *)
Definition tweenWith {T : Type} (lerp : Q -> Exc T) (duration : Q)
  (easing : Easing) : Animation T :=
  mkAnimation
    (fun frame => p <- frameToProgress frame duration ;; lerp (easing p))
    duration.

(** [tween(from, to, duration, easing)] *)
Definition tween (from to duration : Q) (easing : Easing) : Animation Q :=
  tweenWith (fun progress => lerp from to progress) duration easing.

End FlashlightB.

(** ** [src/frame.ts]: job batching ([withFrame])

    The module keeps a queue of [jobs] and the flag [isFrameScheduled].
    [requestAnimationFrame] queues a callback for the next rendering tick;
    the only callback this facility queues is [transactFrame].  Running a
    job is recorded in [ran], in execution order. *)
Inductive FrameCallback := TransactFrame.

Section Batching.

Variable Job : Type.

Record Batch := mkBatch {
  jobs : list Job;
  isFrameScheduled : bool;
  raf : list FrameCallback;
  ran : list Job
}.

(** [while (jobs.length > 0) { const job = jobs.shift()!; job(); }] *)
Fixpoint drain (queue : list Job) (done_ : list Job) : list Job :=
  match queue with
  | [] => done_
  | job :: rest => drain rest (done_ ++ [job])
  end.

(** [transactFrame]: run every queued job, then clear the flag. *)
Definition transactFrame (s : Batch) : Batch :=
  mkBatch [] false (raf s) (drain (jobs s) (ran s)).

(** [withFrame(job)]: push, and request a frame unless one is pending. *)
Definition withFrame (job : Job) (s : Batch) : Batch :=
  let s1 := mkBatch (jobs s ++ [job]) (isFrameScheduled s) (raf s) (ran s) in
  if isFrameScheduled s1 then s1
  else mkBatch (jobs s1) true (raf s1 ++ [TransactFrame]) (ran s1).

Definition fire (c : FrameCallback) (s : Batch) : Batch :=
  match c with
  | TransactFrame => transactFrame s
  end.

(** A rendering tick runs the callbacks requested before it, in order. *)
Definition batch_tick (s : Batch) : Batch :=
  fold_left (fun st c => fire c st) (raf s)
    (mkBatch (jobs s) (isFrameScheduled s) [] (ran s)).

(** The module's state when nothing is queued. *)
Definition idle (done_ : list Job) : Batch := mkBatch [] false [] done_.

End Batching.

Arguments mkBatch {Job} jobs isFrameScheduled raf ran.
Arguments jobs {Job} b.
Arguments isFrameScheduled {Job} b.
Arguments raf {Job} b.
Arguments ran {Job} b.
Arguments withFrame {Job} job s.
Arguments batch_tick {Job} s.
Arguments idle {Job} done_.

(** Several calls [withFrame(j1); withFrame(j2); ...] in a row. *)
Definition withFrames {Job : Type} (js : list Job) (s : Batch Job) : Batch Job :=
  fold_left (fun st j => withFrame j st) js s.

(** The states the module can be in between ticks: either nothing is
    queued and no frame is requested, or exactly one [transactFrame] is
    requested. *)
Definition batch_inv {Job : Type} (s : Batch Job) : Prop :=
  (isFrameScheduled s = false /\ jobs s = [] /\ raf s = []) \/
  (isFrameScheduled s = true /\ raf s = [TransactFrame]).

(** ** [draw]: the draw loop of [src/frame.ts] and of [src/unnamed/part_001]

    The two copies differ only in how a tick computes the frame passed to
    the callback from [start], [now] and [fps]; the section takes that
    computation as [tick_frame].  [pending] counts the [draw] callbacks
    requested with [requestAnimationFrame] and not yet fired; [frames]
    records the arguments of the user's callback. *)
Section DrawLoop.

Variable tick_frame : Q -> Q -> Q -> Q.

Record Loop := mkLoop {
  start : Q;
  fps : Q;
  isPlaying : bool;
  pending : nat;
  frames : list Q
}.

(** [draw(callback, fps)]: [start = performance.now()]. *)
Definition draw (now fps0 : Q) : Loop := mkLoop now fps0 false 0 [].

(** One firing of the inner [draw] callback at time [now]. *)
Definition draw_cb (now : Q) (s : Loop) : Loop :=
  if negb (isPlaying s) then s
  else
    let frame := tick_frame (start s) now (fps s) in
    mkLoop (start s) (fps s) (isPlaying s) (S (pending s)) (frames s ++ [frame]).

(** [play()]: set the flag and request a frame. *)
Definition loop_play (s : Loop) : Loop :=
  mkLoop (start s) (fps s) true (S (pending s)) (frames s).

(** [pause()]: clear the flag. *)
Definition loop_pause (s : Loop) : Loop :=
  mkLoop (start s) (fps s) false (pending s) (frames s).

Fixpoint fire_draw (n : nat) (now : Q) (s : Loop) : Loop :=
  match n with
  | O => s
  | S n' => fire_draw n' now (draw_cb now s)
  end.

(** A rendering tick at time [now]: the callbacks requested before it
    fire; those they request wait for the next tick. *)
Definition loop_tick (now : Q) (s : Loop) : Loop :=
  fire_draw (pending s) now
    (mkLoop (start s) (fps s) (isPlaying s) 0 (frames s)).

Definition loop_ticks (nows : list Q) (s : Loop) : Loop :=
  fold_left (fun st now => loop_tick now st) nows s.

End DrawLoop.

(** [src/frame.ts]: [elapsedToFrame(now - start, fps)]. *)
Definition frame_ts_tick_frame (start now fps : Q) : Q :=
  elapsedToFrame (now - start) fps.

(** [src/unnamed/part_001]: [elapsedToFrame(start, now, fps)]; the third
    argument is dropped, as JavaScript does with surplus arguments. *)
Definition part_001_tick_frame (start now fps : Q) : Q :=
  elapsedToFrame start now.

(** ** [play]: bounded playback (identical in both files)

    [values] records the arguments of the user's callback.  If evaluating
    the animation throws, the exception leaves the callback: nothing is
    recorded and no frame is requested. *)
Section Play.

Context {T : Type}.

Record Player := mkPlayer {
  pstart : Q;
  ppending : nat;
  values : list T
}.

(** [play(animation, callback, fps)] at time [now]: requests a frame. *)
Definition play_start (now : Q) : Player := mkPlayer now 1 [].

Definition play_cb (animation : Animation T) (fps0 now : Q) (s : Player)
  : Player :=
  let elapsed := now - pstart s in
  if Qgtb elapsed (duration animation) then s
  else
    let frame := elapsedToFrame elapsed fps0 in
    match run animation frame with
    | Ok v => mkPlayer (pstart s) (S (ppending s)) (values s ++ [v])
    | Throw _ => s
    end.

Fixpoint fire_play (animation : Animation T) (fps0 : Q) (n : nat) (now : Q)
  (s : Player) : Player :=
  match n with
  | O => s
  | S n' => fire_play animation fps0 n' now (play_cb animation fps0 now s)
  end.

Definition play_tick (animation : Animation T) (fps0 now : Q) (s : Player)
  : Player :=
  fire_play animation fps0 (ppending s) now (mkPlayer (pstart s) 0 (values s)).

Definition play_ticks (animation : Animation T) (fps0 : Q) (nows : list Q)
  (s : Player) : Player :=
  fold_left (fun st now => play_tick animation fps0 now st) nows s.

End Play.

(** ** [effect(keyframe, fx)]: [frame => { if (frame === keyframe) fx(); }]

    [fx] acts on a state [S]; driving an effect with a list of frames
    applies it frame by frame. *)
Section Effect.

Context {S : Type}.

Definition effect (keyframe : Q) (fx : S -> S) (frame : Q) (s : S) : S :=
  if Qeq_bool frame keyframe then fx s else s.

Definition drive_effect (keyframe : Q) (fx : S -> S) (frames : list Q) (s : S) : S :=
  fold_left (fun st frame => effect keyframe fx frame st) frames s.

End Effect.

(** The integer frames [0, 1, ..., n]. *)
Definition sweep (n : nat) : list Q :=
  map (fun i => inject_Z (Z.of_nat i)) (seq 0 (S n)).

(** * Basic facts *)

Lemma Qle_bool_false x y : Qle_bool x y = false -> y < x.
Proof.
  intros E. apply Qnot_le_lt. intros H.
  apply Qle_bool_iff in H. congruence.
Qed.

Ltac no_if t :=
  assert_fails (idtac; match t with context [if _ then _ else _] => idtac end).

(** Case on each comparison of the goal, innermost first. *)
Ltac qle_cases :=
  repeat match goal with
  | |- context [Qle_bool ?x ?y] =>
      no_if x; no_if y;
      let E := fresh "E" in
      destruct (Qle_bool x y) eqn:E;
      [apply Qle_bool_iff in E | apply Qle_bool_false in E]
  end.

Lemma Qle_bool_comp x x' y y' :
  x == x' -> y == y' -> Qle_bool x y = Qle_bool x' y'.
Proof.
  intros Hx Hy.
  destruct (Qle_bool x y) eqn:E1, (Qle_bool x' y') eqn:E2; try reflexivity.
  - apply Qle_bool_iff in E1. apply Qle_bool_false in E2. lra.
  - apply Qle_bool_false in E1. apply Qle_bool_iff in E2. lra.
Qed.

Lemma clamp_ok v lo hi :
  lo <= hi -> clamp v lo hi = Ok (math_min (math_max v lo) hi).
Proof.
  intros H. unfold clamp, Qgtb.
  apply Qle_bool_iff in H. rewrite H. reflexivity.
Qed.

Lemma clamp_in v lo hi : lo <= v -> v <= hi -> clamp v lo hi = Ok v.
Proof.
  intros H1 H2. rewrite clamp_ok by lra.
  unfold math_min, math_max. qle_cases; first [reflexivity | exfalso; lra].
Qed.

Lemma clamp_below v lo hi : v < lo -> lo <= hi -> clamp v lo hi = Ok lo.
Proof.
  intros H1 H2. rewrite clamp_ok by lra.
  unfold math_min, math_max. qle_cases; first [reflexivity | exfalso; lra].
Qed.

Lemma clamp_above v lo hi : lo <= hi -> hi < v -> clamp v lo hi = Ok hi.
Proof.
  intros H1 H2. rewrite clamp_ok by lra.
  unfold math_min, math_max. qle_cases; first [reflexivity | exfalso; lra].
Qed.

Lemma math_clamp_bounds v lo hi :
  lo <= hi -> lo <= math_min (math_max v lo) hi <= hi.
Proof. intros H. unfold math_min, math_max. qle_cases; lra. Qed.

Lemma math_clamp_mono v w lo hi :
  v <= w -> math_min (math_max v lo) hi <= math_min (math_max w lo) hi.
Proof. intros H. unfold math_min, math_max. qle_cases; lra. Qed.

Lemma trunc_comp x y : x == y -> trunc x = trunc y.
Proof.
  intros H. unfold trunc.
  rewrite (Qle_bool_comp 0 0 x y) by (reflexivity || assumption).
  destruct (Qle_bool 0 y).
  - apply Qfloor_comp. exact H.
  - f_equal. apply Qfloor_comp. rewrite H. reflexivity.
Qed.

Lemma trunc_Z k : trunc (inject_Z k) = k.
Proof.
  unfold trunc. qle_cases.
  - apply Qfloor_Z.
  - rewrite <- inject_Z_opp, Qfloor_Z. lia.
Qed.

Lemma js_rem_multiple k d : ~ d == 0 -> js_rem (inject_Z k * d) d == 0.
Proof.
  intros Hd. unfold js_rem.
  rewrite (trunc_comp _ (inject_Z k)) by (field; exact Hd).
  rewrite trunc_Z. ring.
Qed.

(** ** Lerp and tween *)

Lemma div_in_unit f d : 0 < d -> 0 <= f <= d -> 0 <= f / d /\ f / d <= 1.
Proof.
  intros Hd [H1 H2]. split.
  - apply Qle_shift_div_l; [exact Hd | lra].
  - apply Qle_shift_div_r; [exact Hd | lra].
Qed.

(** The first copy's [lerp] gives [from] at progress 0 and [to] at
    progress 1, and grows with the progress when [from <= to]. *)
Lemma lerp_A_laws (a b : Q) :
  evals_to (FlashlightA.lerp a b 0) a /\
  evals_to (FlashlightA.lerp a b 1) b /\
  (a <= b -> forall p q, p <= q -> exists x y,
     FlashlightA.lerp a b p = Ok x /\ FlashlightA.lerp a b q = Ok y /\ x <= y).
Proof.
  unfold FlashlightA.lerp. split; [|split].
  - rewrite clamp_in by lra. simpl. ring.
  - rewrite clamp_in by lra. simpl. ring.
  - intros Hab p q Hpq. rewrite !clamp_ok by lra. simpl.
    do 2 eexists. split; [reflexivity | split; [reflexivity |]].
    pose proof (math_clamp_mono p q 0 1 Hpq).
    nra.
Qed.

(** The second copy's [lerp], for [from <= to], gives [from] at progress
    0 and [to] at progress 1, and grows with the progress. *)
Lemma lerp_B_laws (a b : Q) :
  a <= b ->
  evals_to (FlashlightB.lerp a b 0) a /\
  evals_to (FlashlightB.lerp a b 1) b /\
  (forall p q, p <= q -> exists x y,
     FlashlightB.lerp a b p = Ok x /\ FlashlightB.lerp a b q = Ok y /\ x <= y).
Proof.
  intros Hab. unfold FlashlightB.lerp.
  assert (Hm : math_max (b - a) 0 = b - a)
    by (unfold math_max; qle_cases; first [reflexivity | exfalso; lra]).
  rewrite Hm. split; [|split].
  - rewrite clamp_in by lra. simpl. ring.
  - rewrite clamp_in by lra. simpl. ring.
  - intros p q Hpq. rewrite !clamp_ok by lra. simpl.
    do 2 eexists. split; [reflexivity | split; [reflexivity |]].
    pose proof (math_clamp_mono p q 0 1 Hpq).
    nra.
Qed.

Lemma tween_B_run from to d f :
  0 < d -> 0 <= f <= d ->
  run (FlashlightB.tween from to d linear) f
  = Ok (from + math_max (to - from) 0 * (f / d)).
Proof.
  intros Hd Hf. destruct (div_in_unit f d Hd Hf) as [H1 H2].
  unfold FlashlightB.tween, FlashlightB.tweenWith, frameToProgress.
  cbn [run]. rewrite clamp_in by assumption. cbn [bind].
  unfold linear, FlashlightB.lerp. rewrite clamp_in by assumption.
  reflexivity.
Qed.

(** For a non-decreasing linear tween the three frames of the claim give
    [from], [to] and the midpoint. *)
Lemma tween_B_linear_laws from to d :
  0 < d -> from <= to ->
  evals_to (run (FlashlightB.tween from to d linear) 0) from /\
  evals_to (run (FlashlightB.tween from to d linear) d) to /\
  evals_to (run (FlashlightB.tween from to d linear) (d / 2)) ((from + to) / 2).
Proof.
  intros Hd Hft.
  assert (Hm : math_max (to - from) 0 = to - from)
    by (unfold math_max; qle_cases; first [reflexivity | exfalso; lra]).
  assert (Hd0 : ~ d == 0) by lra.
  split; [|split].
  - rewrite tween_B_run by lra. simpl. rewrite Hm. field. exact Hd0.
  - rewrite tween_B_run by lra. simpl. rewrite Hm. field. exact Hd0.
  - assert (Hh : 0 <= d / 2 <= d).
    { split; [apply Qle_shift_div_l | apply Qle_shift_div_r]; lra. }
    rewrite tween_B_run by assumption. simpl. rewrite Hm. field. exact Hd0.
Qed.

(** ** Delay *)

(** What [delay] does: it holds the start value before [d], follows the
    wrapped animation from [d] to [2 * d], and evaluates it at frame [d]
    from then on (the inner frame is clamped to the delay's duration). *)
Lemma delay_spec {T : Type} (a : Animation T) (d : Q) :
  0 <= d ->
  duration (delay a d) = d + duration a /\
  (forall f, f < d -> run (delay a d) f = run a 0) /\
  (forall f, d <= f -> f <= d + d -> run (delay a d) f = run a (f - d)) /\
  (forall f, d + d < f -> run (delay a d) f = run a d).
Proof.
  intros Hd. split; [reflexivity | split; [| split]].
  - intros f Hf. simpl. rewrite clamp_below by lra. reflexivity.
  - intros f H1 H2. simpl. rewrite clamp_in by lra. reflexivity.
  - intros f Hf. simpl. rewrite clamp_above by lra. reflexivity.
Qed.

(** ** Repeat and track *)

(** A sample animation of integers: the whole frames elapsed. *)
Definition floor_anim : Animation Z := mkAnimation (fun f => Ok (Qfloor f)) 4.

Lemma floor_anim_respects : respects floor_anim.
Proof. intros x y H. simpl. f_equal. apply Qfloor_comp. exact H. Qed.

Lemma track_pair {T : Type} (a b : Animation T) : track a [b] = sequence a b.
Proof. reflexivity. Qed.

(** ** Draw loop *)

Lemma fire_draw_paused tf n now s :
  isPlaying s = false -> fire_draw tf n now s = s.
Proof.
  revert s. induction n as [|n IH]; intros s Hp; simpl; [reflexivity |].
  unfold draw_cb. rewrite Hp. simpl. apply IH. exact Hp.
Qed.

Lemma loop_ticks_paused tf nows s :
  isPlaying s = false ->
  frames (loop_ticks tf nows s) = frames s /\
  isPlaying (loop_ticks tf nows s) = false /\
  (nows <> [] -> pending (loop_ticks tf nows s) = 0%nat).
Proof.
  revert s. induction nows as [|now nows IH]; intros s Hp.
  - simpl. split; [reflexivity | split; [exact Hp | congruence]].
  - unfold loop_ticks. simpl. fold (loop_ticks tf nows (loop_tick tf now s)).
    assert (Ht : loop_tick tf now s = mkLoop (start s) (fps s) false 0%nat (frames s)).
    { unfold loop_tick. rewrite fire_draw_paused by (simpl; exact Hp).
      rewrite Hp. reflexivity. }
    rewrite Ht. destruct (IH (mkLoop (start s) (fps s) false 0%nat (frames s)))
      as (H1 & H2 & H3); [reflexivity |].
    split; [exact H1 | split; [exact H2 |]].
    intros _. destruct nows as [|n' rest]; [reflexivity |].
    apply H3. congruence.
Qed.

(** ** Play *)

Section PlayShift.

Context {T : Type}.
Variables (animation : Animation T) (fps0 : Q).

Definition same_progress (s s' : Player (T:=T)) : Prop :=
  ppending s = ppending s' /\ values s = values s'.

Lemma play_cb_start now (s : Player) : pstart (play_cb animation fps0 now s) = pstart s.
Proof.
  unfold play_cb. destruct (Qgtb _ _); [reflexivity |].
  destruct (run _ _); reflexivity.
Qed.

Lemma play_cb_shift now now' (s s' : Player) :
  now - pstart s == now' - pstart s' -> same_progress s s' ->
  same_progress (play_cb animation fps0 now s) (play_cb animation fps0 now' s').
Proof.
  intros He [Hp Hv]. unfold play_cb, Qgtb.
  rewrite (Qle_bool_comp (now - pstart s) (now' - pstart s')
             (duration animation) (duration animation))
    by (assumption || reflexivity).
  destruct (Qle_bool _ _); simpl; [| split; assumption].
  assert (Hf : elapsedToFrame (now - pstart s) fps0
               = elapsedToFrame (now' - pstart s') fps0).
  { unfold elapsedToFrame, math_floor. f_equal. apply Qfloor_comp.
    rewrite He. reflexivity. }
  rewrite Hf. destruct (run _ _); unfold same_progress; simpl;
    [| split; assumption].
  split; congruence.
Qed.

Lemma fire_play_shift n now now' (s s' : Player) :
  now - pstart s == now' - pstart s' -> same_progress s s' ->
  same_progress (fire_play animation fps0 n now s) (fire_play animation fps0 n now' s') /\
  pstart (fire_play animation fps0 n now s) = pstart s /\
  pstart (fire_play animation fps0 n now' s') = pstart s'.
Proof.
  revert s s'. induction n as [|n IH]; intros s s' He Hs; simpl.
  - split; [exact Hs | split; reflexivity].
  - destruct (IH (play_cb animation fps0 now s) (play_cb animation fps0 now' s'))
      as (H1 & H2 & H3).
    + rewrite !play_cb_start. exact He.
    + apply play_cb_shift; assumption.
    + rewrite H2, H3, !play_cb_start. split; [exact H1 | split; reflexivity].
Qed.

Lemma play_tick_shift now now' (s s' : Player) :
  now - pstart s == now' - pstart s' -> same_progress s s' ->
  same_progress (play_tick animation fps0 now s) (play_tick animation fps0 now' s') /\
  pstart (play_tick animation fps0 now s) = pstart s /\
  pstart (play_tick animation fps0 now' s') = pstart s'.
Proof.
  intros He [Hp Hv]. unfold play_tick. rewrite Hp.
  destruct (fire_play_shift (ppending s') now now'
              (mkPlayer (pstart s) 0 (values s)) (mkPlayer (pstart s') 0 (values s')))
    as (H1 & H2 & H3).
  - exact He.
  - split; simpl; [reflexivity | exact Hv].
  - rewrite H2, H3. split; [exact H1 | split; reflexivity].
Qed.

(** Playback depends on tick times only through the time elapsed since
    [play] was called. *)
Lemma play_ticks_shift t0 es (s s' : Player) :
  pstart s = t0 -> pstart s' = 0 -> same_progress s s' ->
  same_progress (play_ticks animation fps0 (map (fun e => t0 + e) es) s)
                (play_ticks animation fps0 es s').
Proof.
  revert s s'. induction es as [|e es IH]; intros s s' H0 H0' Hs; simpl;
    [exact Hs |].
  destruct (play_tick_shift (t0 + e) e s s') as (H1 & H2 & H3).
  - rewrite H0, H0'. ring.
  - exact Hs.
  - apply IH; [congruence | congruence | exact H1].
Qed.

End PlayShift.

(** * Claims *)

(** Sample animations used by the concrete statements below. *)
Definition tween_0_100_100 : Animation Q := FlashlightB.tween 0 100 100 linear.
Definition tween_100_0_60 : Animation Q := FlashlightB.tween 100 0 60 linear.
Definition tween_0_100_10 : Animation Q := FlashlightB.tween 0 100 10 linear.
Definition held_300 : Animation Q := repeat (FlashlightB.tween 200 300 10 linear) 0.
Definition tween_0_100_60 : Animation Q := FlashlightB.tween 0 100 60 linear.

(** C1 (code bug).  [delay(tween(0, 100, 100, linear), 10)] at frame 50
    evaluates the wrapped tween at frame 10 (the inner frame is clamped to
    the delay [10], not to the tween's own duration [100]) and yields 10,
    while the wrapped tween at frame [50 - 10 = 40] yields 40. *)
Theorem delay_inner_frame_capped :
  run (delay tween_0_100_100 10) 50 = run tween_0_100_100 10 /\
  evals_to (run (delay tween_0_100_100 10) 50) 10 /\
  evals_to (run tween_0_100_100 (50 - 10)) 40.
Proof.
  split; [reflexivity |].
  split; vm_compute; reflexivity.
Qed.

(** C2 (code bug).  [tween(100, 0, 60, linear)] evaluated at its last frame
    [60] yields [100] (the start value) and not [0]: the second [lerp]
    clamps [to - from] to be non-negative, so a decreasing tween never
    moves. *)
Theorem tween_decreasing_stays_at_from :
  evals_to (run tween_100_0_60 60) 100 /\
  ~ evals_to (run tween_100_0_60 60) 0 /\
  evals_to (run tween_100_0_60 30) 100.
Proof.
  vm_compute. split; [reflexivity | split; [discriminate | reflexivity]].
Qed.

(** C3 (code bug).  The second [lerp] gives [lerp(5, 0, 1) = 5], not [0];
    the first [lerp] gives [0]. *)
Theorem lerp_B_flattens_decreasing :
  evals_to (FlashlightB.lerp 5 0 1) 5 /\
  ~ evals_to (FlashlightB.lerp 5 0 1) 0 /\
  evals_to (FlashlightA.lerp 5 0 1) 0.
Proof.
  vm_compute. split; [reflexivity | split; [discriminate | reflexivity]].
Qed.

(** C4.  For an animation [a] with positive duration and a positive integer
    [n], [repeat(a, n)] lasts [n * a.duration]; from that frame on it
    evaluates [a] at [a.duration]; before it, [a] at [frame % a.duration];
    and at [k * a.duration] for an integer [k < n] it evaluates [a] at 0
    (for an [a] that depends only on the number its frame denotes). *)
Theorem repeat_contract {T : Type} (a : Animation T) (n : positive) :
  0 < duration a ->
  duration (repeat a (inject_Z (Zpos n))) = inject_Z (Zpos n) * duration a /\
  (forall f, inject_Z (Zpos n) * duration a <= f ->
     run (repeat a (inject_Z (Zpos n))) f = run a (duration a)) /\
  (forall f, f < inject_Z (Zpos n) * duration a ->
     run (repeat a (inject_Z (Zpos n))) f = run a (js_rem f (duration a))) /\
  (respects a -> forall k : Z, (k < Zpos n)%Z ->
     run (repeat a (inject_Z (Zpos n))) (inject_Z k * duration a) = run a 0).
Proof.
  intros Hd. split; [reflexivity | split; [| split]].
  - intros f Hf. unfold repeat; cbn [run].
    apply Qle_bool_iff in Hf. rewrite Hf. reflexivity.
  - intros f Hf. unfold repeat; cbn [run].
    qle_cases; [exfalso; lra | reflexivity].
  - intros Hr k Hk. unfold repeat; cbn [run].
    assert (Hlt : inject_Z k * duration a < inject_Z (Zpos n) * duration a).
    { apply Qmult_lt_r; [exact Hd |]. rewrite <- Zlt_Qlt. exact Hk. }
    qle_cases; [exfalso; lra |].
    apply Hr. apply js_rem_multiple. lra.
Qed.

Lemma repeat_contract_witness :
  0 < duration floor_anim /\
  run (repeat floor_anim (inject_Z (Zpos 3))) (inject_Z 2 * duration floor_anim)
  = run floor_anim 0.
Proof.
  assert (Hd : 0 < duration floor_anim) by reflexivity.
  split; [exact Hd |].
  destruct (repeat_contract floor_anim 3 Hd) as (_ & _ & _ & H4).
  apply H4; [exact floor_anim_respects | reflexivity].
Defined.

(** C5 (counterexample).  With a second animation of duration 0 the last
    frame of [track(a, b)] is [a.duration], which the inclusive boundary
    gives to [a]: [track(tween(0, 100, 10), repeat(tween(200, 300, 10), 0))]
    yields 100 there, while [b] at [b.duration] yields 300. *)
Lemma track_end_frame_counterexample :
  run (track tween_0_100_10 [held_300]) (duration tween_0_100_10 + duration held_300)
  <> run held_300 (duration held_300) /\
  evals_to (run (track tween_0_100_10 [held_300])
              (duration tween_0_100_10 + duration held_300)) 100 /\
  evals_to (run held_300 (duration held_300)) 300.
Proof.
  vm_compute. split; [intros H; inversion H | split; reflexivity].
Qed.

(** C5 (amended).  For animations [a] and [b] with [a.duration >= 0],
    [track(a, b)] lasts [a.duration + b.duration], evaluates [a] at every
    frame [f <= a.duration] and [b] at [f - a.duration] after it; at frame
    0 it equals [a] at 0; at its last frame it equals [b] at [b.duration]
    when [b.duration > 0] (for a [b] that depends only on the number its
    frame denotes), and evaluates [a] there when [b.duration = 0]. *)
Theorem track_pair_contract {T : Type} (a b : Animation T) :
  0 <= duration a ->
  duration (track a [b]) = duration a + duration b /\
  (forall f, f <= duration a -> run (track a [b]) f = run a f) /\
  (forall f, duration a < f -> run (track a [b]) f = run b (f - duration a)) /\
  run (track a [b]) 0 = run a 0 /\
  (respects b -> 0 < duration b ->
     run (track a [b]) (duration a + duration b) = run b (duration b)) /\
  (duration b == 0 ->
     run (track a [b]) (duration a + duration b)
     = run a (duration a + duration b)).
Proof.
  intros Ha. rewrite track_pair.
  split; [reflexivity | split; [| split; [| split; [| split]]]];
    unfold sequence; cbn [run].
  - intros f Hf. apply Qle_bool_iff in Hf. rewrite Hf. reflexivity.
  - intros f Hf. qle_cases; [exfalso; lra | reflexivity].
  - apply Qle_bool_iff in Ha. rewrite Ha. reflexivity.
  - intros Hr Hb. qle_cases; [exfalso; lra |]. apply Hr. ring.
  - intros Hb. qle_cases; [reflexivity | exfalso; lra].
Qed.

Lemma track_pair_contract_witness :
  0 <= duration tween_0_100_10 /\
  run (track tween_0_100_10 [tween_0_100_10]) 0 = run tween_0_100_10 0.
Proof.
  assert (Ha : 0 <= duration tween_0_100_10) by (vm_compute; discriminate).
  split; [exact Ha |].
  destruct (track_pair_contract tween_0_100_10 tween_0_100_10 Ha)
    as (_ & _ & _ & H4 & _).
  exact H4.
Defined.

(** C6.  Three [withFrame] calls from the idle state queue one
    [transactFrame] (the first call queues it, the other two add none); the
    next tick runs the three jobs in call order and clears the flag. *)
Theorem withFrame_coalesces {Job : Type} (done_ : list Job) (j1 j2 j3 : Job) :
  let s1 := withFrame j1 (idle done_) in
  let s := withFrame j3 (withFrame j2 s1) in
  raf s1 = [TransactFrame] /\
  raf s = [TransactFrame] /\
  isFrameScheduled s = true /\
  jobs s = [j1; j2; j3] /\
  ran s = done_ /\
  ran (batch_tick s) = done_ ++ [j1; j2; j3] /\
  isFrameScheduled (batch_tick s) = false /\
  jobs (batch_tick s) = [] /\
  raf (batch_tick s) = [].
Proof.
  intros s1 s. subst s1 s.
  repeat split; simpl; try reflexivity.
  rewrite <- !app_assoc. reflexivity.
Qed.

(** C7 (code bug).  With [fps = 60], a loop of [src/frame.ts] created and
    started at [t0] reports frame 1 on a tick at [t0 + 33]; the loop of
    [src/unnamed/part_001] created and started at 1000 reports frame 1033
    on a tick at 1033 ([elapsedToFrame(start, now, fps)] reads [start] as
    the elapsed time and [now] as the frame rate). *)
Theorem draw_tick_frame_variants (t0 : Q) :
  frames (loop_tick frame_ts_tick_frame (t0 + 33) (loop_play (draw t0 60))) = [1] /\
  frames (loop_tick part_001_tick_frame 1033 (loop_play (draw 1000 60))) = [1033].
Proof.
  split; [| vm_compute; reflexivity].
  unfold loop_tick, loop_play, draw. simpl.
  unfold draw_cb. simpl. unfold frame_ts_tick_frame, elapsedToFrame, math_floor.
  rewrite (Qfloor_comp ((t0 + 33 - t0) / (1000 / 60)) (33 / (1000 / 60)))
    by (field; discriminate).
  reflexivity.
Qed.

(** C8 (counterexample).  [play(tween(0, 100, 60, linear), cb)] with
    [fps = 60] and ticks at elapsed 0, 30, 60 and 90 ms does not deliver
    [0, 50, 100]: the second value is [5/3]. *)
Lemma play_scenario_counterexample :
  ~ Forall2 Qeq
      (values (play_ticks tween_0_100_60 60 [0; 30; 60; 90] (play_start 0)))
      [0; 50; 100].
Proof.
  intros H. vm_compute in H.
  inversion H as [| x y l l' H1 H2]; subst.
  inversion H2 as [| x' y' l2 l2' H3 H4]; subst.
  vm_compute in H3. discriminate H3.
Qed.

(** C8 (amended).  [play(tween(0, 100, 60, linear), cb)] with [fps = 60]
    started at [t0] and ticks at [t0 + 0], [t0 + 30], [t0 + 60] and
    [t0 + 90]: the callback receives the tween at virtual frames 0, 1 and 3,
    that is [0], [5/3] and [5]; the tick at elapsed 90 (more than the
    duration 60) neither calls it nor requests another frame. *)
Theorem play_tween_scenario (t0 : Q) :
  let s := play_ticks tween_0_100_60 60
             [t0 + 0; t0 + 30; t0 + 60; t0 + 90] (play_start t0) in
  map Qred (values s) = [0; 5 # 3; 5] /\ ppending s = 0%nat.
Proof.
  intros s. subst s.
  change [t0 + 0; t0 + 30; t0 + 60; t0 + 90]
    with (map (fun e => t0 + e) [0; 30; 60; 90]).
  destruct (play_ticks_shift tween_0_100_60 60 t0 [0; 30; 60; 90]
              (play_start t0) (play_start 0)) as [Hp Hv];
    [reflexivity | reflexivity | split; reflexivity |].
  rewrite Hp, Hv. vm_compute. split; reflexivity.
Qed.

(** C9.  [clamp(v, lo, hi)] throws [InvalidRange] exactly when [lo > hi];
    otherwise it returns a value of [[lo, hi]], which is [v] itself when
    [v] lies in [[lo, hi]]. *)
Theorem clamp_contract (v lo hi : Q) :
  (clamp v lo hi = Throw InvalidRange <-> hi < lo) /\
  (lo <= hi -> exists r, clamp v lo hi = Ok r /\ lo <= r <= hi /\
                         (lo <= v <= hi -> r = v)).
Proof.
  split.
  - unfold clamp, Qgtb. destruct (Qle_bool lo hi) eqn:E; simpl.
    + apply Qle_bool_iff in E.
      split; [intros H; discriminate H | intros H; exfalso; lra].
    + apply Qle_bool_false in E. split; [intros _; exact E | reflexivity].
  - intros H. rewrite clamp_ok by exact H. eexists.
    split; [reflexivity | split; [apply math_clamp_bounds; exact H |]].
    intros [H1 H2]. unfold math_min, math_max.
    qle_cases; first [reflexivity | exfalso; lra].
Qed.

Lemma clamp_contract_witness :
  0 <= 1 /\ exists r, clamp (1 # 2) 0 1 = Ok r /\ 0 <= r <= 1 /\
                      (0 <= 1 # 2 <= 1 -> r = 1 # 2).
Proof.
  assert (H : 0 <= 1) by (vm_compute; discriminate).
  split; [exact H |].
  exact (proj2 (clamp_contract (1 # 2) 0 1) H).
Defined.

(** C10.  Once [pause()] has been called, no later tick calls the
    callback, in either copy of the draw loop; the first tick after the
    pause consumes the pending request without renewing it. *)
Theorem pause_silences_draw (s : Loop) (nows : list Q) :
  frames (loop_ticks frame_ts_tick_frame nows (loop_pause s)) = frames s /\
  frames (loop_ticks part_001_tick_frame nows (loop_pause s)) = frames s /\
  (nows <> [] ->
     pending (loop_ticks frame_ts_tick_frame nows (loop_pause s)) = 0%nat /\
     pending (loop_ticks part_001_tick_frame nows (loop_pause s)) = 0%nat).
Proof.
  destruct (loop_ticks_paused frame_ts_tick_frame nows (loop_pause s))
    as (A1 & _ & A3); [reflexivity |].
  destruct (loop_ticks_paused part_001_tick_frame nows (loop_pause s))
    as (B1 & _ & B3); [reflexivity |].
  split; [exact A1 | split; [exact B1 |]].
  intros Hn. split; [exact (A3 Hn) | exact (B3 Hn)].
Qed.

Lemma pause_silences_draw_witness :
  [33] <> [] /\
  pending (loop_ticks frame_ts_tick_frame [33] (loop_pause (loop_play (draw 0 60))))
  = 0%nat.
Proof.
  assert (H : [33] <> []) by discriminate.
  split; [exact H |].
  exact (proj1 (proj2 (proj2 (pause_silences_draw (loop_play (draw 0 60)) [33])) H)).
Defined.

(** * Further properties of the code *)

(** ** Easings *)


(** Each "out" curve is the "in" curve reflected through the point
    (1/2, 1/2): [easeOutX(t) = 1 - easeInX(1 - t)]. *)
Theorem ease_out_is_reflected_in (t : Q) :
  easeOutQuad t == 1 - easeInQuad (1 - t) /\
  easeOutCubic t == 1 - easeInCubic (1 - t) /\
  easeOutQuart t == 1 - easeInQuart (1 - t) /\
  easeOutQuint t == 1 - easeInQuint (1 - t) /\
  easeOutBack t == 1 - easeInBack (1 - t).
Proof.
  unfold easeOutQuad, easeInQuad, easeOutCubic, easeInCubic, easeOutQuart,
    easeInQuart, easeOutQuint, easeInQuint, easeOutBack, easeInBack.
  repeat split; ring.
Qed.

(** Replace each quotient of two literals by its value. *)
Ltac qconst :=
  repeat match goal with
  | |- context [(Qmake ?a ?b / Qmake ?c ?d)%Q] =>
      let v := eval vm_compute in (Qred (Qmake a b / Qmake c d)) in
      let H := fresh in
      assert (H : Qmake a b / Qmake c d == v) by (vm_compute; reflexivity);
      rewrite H; clear H
  | E : context [(Qmake ?a ?b / Qmake ?c ?d)%Q] |- _ =>
      let v := eval vm_compute in (Qred (Qmake a b / Qmake c d)) in
      let H := fresh in
      assert (H : Qmake a b / Qmake c d == v) by (vm_compute; reflexivity);
      rewrite H in E; clear H
  end.

Ltac in_out_sym t :=
  unfold Qltb; qle_cases; unfold negb; cbv beta iota;
  first
    [ exfalso; lra
    | field
    | let H := fresh "H" in
      assert (H : t == 1 # 2) by lra; rewrite H; vm_compute; reflexivity ].

(** Each "in-out" curve is symmetric about (1/2, 1/2):
    [easeInOutX(1 - t) = 1 - easeInOutX(t)]. *)
Theorem ease_in_out_symmetric (t : Q) :
  easeInOutQuad (1 - t) == 1 - easeInOutQuad t /\
  easeInOutCubic (1 - t) == 1 - easeInOutCubic t /\
  easeInOutQuart (1 - t) == 1 - easeInOutQuart t /\
  easeInOutQuint (1 - t) == 1 - easeInOutQuint t /\
  easeInOutBack (1 - t) == 1 - easeInOutBack t.
Proof.
  split; [unfold easeInOutQuad; in_out_sym t |].
  split; [unfold easeInOutCubic; in_out_sym t |].
  split; [unfold easeInOutQuart; in_out_sym t |].
  split; [unfold easeInOutQuint; in_out_sym t |].
  unfold easeInOutBack. in_out_sym t.
Qed.

(** [easeInBack] dips below 0 right after the start, and [easeOutBack]
    rises above 1 right before the end. *)
Lemma easeInBack_negative (t : Q) :
  0 < t -> t < back_c1 / (back_c1 + 1) -> easeInBack t < 0.
Proof.
  intros H0 H1.
  assert (Hc : 0 < back_c1 + 1) by (vm_compute; reflexivity).
  assert (H2 : t * (back_c1 + 1) < back_c1).
  { apply (Qmult_lt_r _ _ (back_c1 + 1)) in H1; [| exact Hc].
    setoid_replace (back_c1 / (back_c1 + 1) * (back_c1 + 1)) with back_c1
      in H1 by (field; vm_compute; discriminate).
    exact H1. }
  assert (Ht : 0 < t * t) by nra.
  unfold easeInBack. cbv zeta. nra.
Qed.

Lemma easeOutBack_reflect (t : Q) : easeOutBack (1 - t) == 1 - easeInBack t.
Proof. unfold easeOutBack, easeInBack. field. Qed.

Theorem back_easings_overshoot (t : Q) :
  0 < t -> t < back_c1 / (back_c1 + 1) ->
  easeInBack t < 0 /\ 1 < easeOutBack (1 - t).
Proof.
  intros H0 H1. pose proof (easeInBack_negative t H0 H1) as Hin.
  split; [exact Hin |]. rewrite easeOutBack_reflect. lra.
Qed.

Lemma back_easings_overshoot_witness :
  0 < 1 # 10 /\ 1 # 10 < back_c1 / (back_c1 + 1) /\
  easeInBack (1 # 10) < 0 /\ 1 < easeOutBack (1 - (1 # 10)).
Proof.
  assert (H0 : 0 < 1 # 10) by reflexivity.
  assert (H1 : 1 # 10 < back_c1 / (back_c1 + 1)) by (vm_compute; reflexivity).
  split; [exact H0 | split; [exact H1 |]].
  exact (back_easings_overshoot (1 # 10) H0 H1).
Defined.

(** [easeOutBounce] and [easeInBounce] stay within [[0, 1]] on [[0, 1]]:
    the four parabolas of [easeOutBounce] never rise above 1. *)
Theorem bounce_easings_in_unit (t : Q) :
  0 <= t <= 1 ->
  (0 <= easeOutBounce t <= 1) /\ (0 <= easeInBounce t <= 1).
Proof.
  assert (Hout : forall u, 0 <= u <= 1 -> 0 <= easeOutBounce u <= 1).
  { intros u [Hu0 Hu1]. unfold easeOutBounce. cbv zeta.
    unfold Qltb; qle_cases; unfold negb; cbv beta iota; qconst;
      split; nra. }
  intros Ht. split; [apply Hout; exact Ht |].
  unfold easeInBounce. destruct (Hout (1 - t)) as [A B]; [lra |]. lra.
Qed.

Lemma bounce_easings_in_unit_witness :
  0 <= 1 # 3 <= 1 /\
  (0 <= easeOutBounce (1 # 3) <= 1) /\ (0 <= easeInBounce (1 # 3) <= 1).
Proof.
  assert (H : 0 <= 1 # 3 <= 1) by (split; vm_compute; discriminate).
  split; [exact H |]. exact (bounce_easings_in_unit (1 # 3) H).
Defined.

(** ** Frame and progress conversions *)

Lemma math_clamp_cases x lo hi :
  lo <= hi ->
  (x <= lo -> math_min (math_max x lo) hi == lo) /\
  (lo <= x <= hi -> math_min (math_max x lo) hi == x) /\
  (hi <= x -> math_min (math_max x lo) hi == hi).
Proof.
  intros H. unfold math_min, math_max.
  split; [| split]; intros; qle_cases; lra.
Qed.

Lemma math_clamp_comp x y lo hi :
  x == y -> math_min (math_max x lo) hi == math_min (math_max y lo) hi.
Proof. intros H. unfold math_min, math_max. qle_cases; lra. Qed.

Lemma frameToProgress_ok f d :
  frameToProgress f d = Ok (math_min (math_max (f / d) 0) 1).
Proof. unfold frameToProgress. apply clamp_ok. discriminate. Qed.

Lemma div_le_0 f d : 0 < d -> f <= 0 -> f / d <= 0.
Proof. intros Hd Hf. apply Qle_shift_div_r; [exact Hd | lra]. Qed.

Lemma div_ge_1 f d : 0 < d -> d <= f -> 1 <= f / d.
Proof. intros Hd Hf. apply Qle_shift_div_l; [exact Hd | lra]. Qed.

Lemma div_mono f g d : 0 < d -> f <= g -> f / d <= g / d.
Proof.
  intros Hd H. unfold Qdiv. apply Qmult_le_compat_r; [exact H |].
  apply Qlt_le_weak, Qinv_lt_0_compat, Hd.
Qed.

(** For a positive duration, [frameToProgress] never throws, gives a
    progress in [[0, 1]] that grows with the frame, is 0 up to frame 0, 1
    from the last frame on, and [frame / duration] in between. *)
Theorem frameToProgress_spec (d : Q) :
  0 < d ->
  forall f, exists p, frameToProgress f d = Ok p /\ 0 <= p <= 1 /\
    (f <= 0 -> p == 0) /\ (d <= f -> p == 1) /\ (0 <= f <= d -> p == f / d) /\
    (forall g q, f <= g -> frameToProgress g d = Ok q -> p <= q).
Proof.
  intros Hd f. rewrite frameToProgress_ok. eexists.
  split; [reflexivity |].
  destruct (math_clamp_cases (f / d) 0 1) as (C1 & C2 & C3); [discriminate |].
  split; [apply math_clamp_bounds; discriminate |].
  split; [intros Hf; apply C1, div_le_0; assumption |].
  split; [intros Hf; apply C3, div_ge_1; assumption |].
  split; [intros Hf; apply C2, div_in_unit; assumption |].
  intros g q Hfg Hq. rewrite frameToProgress_ok in Hq. injection Hq as <-.
  apply math_clamp_mono, div_mono; assumption.
Qed.

Lemma frameToProgress_spec_witness :
  0 < 60 /\ exists p, frameToProgress 30 60 = Ok p /\ 0 <= p <= 1 /\
    (30 <= 0 -> p == 0) /\ (60 <= 30 -> p == 1) /\ (0 <= 30 <= 60 -> p == 30 / 60) /\
    (forall g q, 30 <= g -> frameToProgress g 60 = Ok q -> p <= q).
Proof.
  assert (H : 0 < 60) by reflexivity.
  split; [exact H |]. exact (frameToProgress_spec 60 H 30).
Defined.

(** Round trip: for a positive duration, converting a frame to progress and
    back gives the frame clamped to [[0, duration]]. *)
Theorem progress_frame_roundtrip (f d : Q) :
  0 < d ->
  exists r, clamp f 0 d = Ok r /\
            evals_to (p <- frameToProgress f d ;; progressToFrame p d) r.
Proof.
  intros Hd. rewrite clamp_ok by lra. eexists. split; [reflexivity |].
  rewrite frameToProgress_ok. cbn [bind]. unfold progressToFrame.
  rewrite clamp_ok by lra. cbn [evals_to].
  destruct (math_clamp_cases (f / d) 0 1) as (A1 & A2 & A3); [discriminate |].
  destruct (math_clamp_cases f 0 d) as (B1 & B2 & B3); [lra |].
  assert (Hd0 : ~ d == 0) by lra.
  destruct (Qlt_le_dec f 0) as [Hf | Hf]; [| destruct (Qlt_le_dec d f) as [Hf' | Hf']].
  - rewrite (math_clamp_comp _ 0) by (rewrite A1 by (apply div_le_0; lra); ring).
    rewrite (B1 ltac:(lra)). destruct (math_clamp_cases 0 0 d) as (D1 & _); [lra |].
    apply D1. lra.
  - rewrite (math_clamp_comp _ d) by (rewrite A3 by (apply div_ge_1; lra); ring).
    rewrite (B3 ltac:(lra)). destruct (math_clamp_cases d 0 d) as (_ & _ & D3); [lra |].
    apply D3. lra.
  - rewrite (math_clamp_comp _ f)
      by (rewrite A2 by (apply div_in_unit; lra); field; exact Hd0).
    rewrite (B2 ltac:(lra)). reflexivity.
Qed.

Lemma progress_frame_roundtrip_witness :
  0 < 10 /\ exists r, clamp 25 0 10 = Ok r /\
    evals_to (p <- frameToProgress 25 10 ;; progressToFrame p 10) r.
Proof.
  assert (H : 0 < 10) by reflexivity.
  split; [exact H |]. exact (progress_frame_roundtrip 25 10 H).
Defined.

(** [progressToFrame] throws [InvalidRange] exactly for a negative duration;
    otherwise its frame lies in [[0, duration]] and equals
    [progress * duration] for a progress in [[0, 1]]. *)
Theorem progressToFrame_contract (p d : Q) :
  (progressToFrame p d = Throw InvalidRange <-> d < 0) /\
  (0 <= d -> exists r, progressToFrame p d = Ok r /\ 0 <= r <= d /\
                       (0 <= p <= 1 -> r == p * d)).
Proof.
  unfold progressToFrame. split.
  - unfold clamp, Qgtb. destruct (Qle_bool 0 d) eqn:E; simpl.
    + apply Qle_bool_iff in E.
      split; [intros H; discriminate H | intros H; exfalso; lra].
    + apply Qle_bool_false in E. split; [intros _; exact E | reflexivity].
  - intros Hd. rewrite clamp_ok by exact Hd. eexists.
    split; [reflexivity | split; [apply math_clamp_bounds; exact Hd |]].
    intros Hp. destruct (math_clamp_cases (p * d) 0 d) as (_ & C2 & _); [exact Hd |].
    apply C2. split; nra.
Qed.

Lemma progressToFrame_contract_witness :
  0 <= 8 /\ exists r, progressToFrame (1 # 2) 8 = Ok r /\ 0 <= r <= 8 /\
                      (0 <= 1 # 2 <= 1 -> r == (1 # 2) * 8).
Proof.
  assert (H : 0 <= 8) by discriminate.
  split; [exact H |]. exact (proj2 (progressToFrame_contract (1 # 2) 8) H).
Defined.

Lemma Qfloor_unique x (z : Z) : inject_Z z <= x -> x < inject_Z z + 1 -> Qfloor x = z.
Proof.
  intros H1 H2. pose proof (Qfloor_le x) as F1. pose proof (Qlt_floor x) as F2.
  rewrite inject_Z_plus in F2. change (inject_Z 1) with 1 in F2.
  assert (A : (Qfloor x < z + 1)%Z).
  { rewrite Zlt_Qlt, inject_Z_plus. change (inject_Z 1) with 1. lra. }
  assert (B : (z < Qfloor x + 1)%Z).
  { rewrite Zlt_Qlt, inject_Z_plus. change (inject_Z 1) with 1. lra. }
  lia.
Qed.

Lemma elapsedToFrame_mono e e' fps :
  0 < fps -> e <= e' -> elapsedToFrame e fps <= elapsedToFrame e' fps.
Proof.
  intros Hf He. unfold elapsedToFrame, math_floor. rewrite <- Zle_Qle.
  apply Qfloor_resp_le, div_mono; [| exact He].
  apply Qlt_shift_div_l; [exact Hf | lra].
Qed.

(** For a positive frame rate, [elapsedToFrame] counts the whole frame
    periods ([1000 / fps] ms each) in the elapsed time, and never
    decreases as the elapsed time grows. *)
Theorem elapsedToFrame_bounds (e fps : Q) :
  0 < fps ->
  elapsedToFrame e fps * (1000 / fps) <= e /\
  e < (elapsedToFrame e fps + 1) * (1000 / fps) /\
  (forall e', e <= e' -> elapsedToFrame e fps <= elapsedToFrame e' fps).
Proof.
  intros Hf.
  assert (HP : 0 < 1000 / fps) by (apply Qlt_shift_div_l; [exact Hf | lra]).
  assert (HP0 : ~ 1000 / fps == 0) by lra.
  assert (Hx : e / (1000 / fps) * (1000 / fps) == e) by (field; repeat split; intro; lra).
  unfold elapsedToFrame, math_floor.
  split; [| split].
  - rewrite <- Hx at 2. apply Qmult_le_compat_r; [apply Qfloor_le | lra].
  - rewrite <- Hx at 1. apply Qmult_lt_r; [exact HP |].
    pose proof (Qlt_floor (e / (1000 / fps))) as F.
    rewrite inject_Z_plus in F. exact F.
  - intros e' He. apply (elapsedToFrame_mono e e' fps Hf He).
Qed.

Lemma elapsedToFrame_bounds_witness :
  0 < 60 /\ elapsedToFrame 33 60 * (1000 / 60) <= 33.
Proof.
  assert (H : 0 < 60) by reflexivity.
  split; [exact H |]. exact (proj1 (elapsedToFrame_bounds 33 60 H)).
Defined.

(** ** Tweens of both copies *)

(** First copy: [anim(tween(from, to), d)] with a positive [d] and linear
    easing interpolates from [from] to [to] in either direction, holding
    [from] up to frame 0 and [to] from frame [d] on. *)
Theorem anim_tween_A_linear (from to d : Q) :
  0 < d ->
  (forall f, 0 <= f <= d ->
     evals_to (run (FlashlightA.anim (FlashlightA.tween from to linear) d) f)
              (from + (to - from) * (f / d))) /\
  (forall f, f <= 0 ->
     evals_to (run (FlashlightA.anim (FlashlightA.tween from to linear) d) f) from) /\
  (forall f, d <= f ->
     evals_to (run (FlashlightA.anim (FlashlightA.tween from to linear) d) f) to).
Proof.
  intros Hd.
  assert (Run : forall f, run (FlashlightA.anim (FlashlightA.tween from to linear) d) f
                = Ok (from + (to - from) * math_min (math_max (f / d) 0) 1)).
  { intros f. unfold FlashlightA.anim. cbn [run]. rewrite frameToProgress_ok.
    cbn [bind]. unfold FlashlightA.tween, FlashlightA.lerp, linear.
    rewrite clamp_in by (apply math_clamp_bounds; discriminate). reflexivity. }
  split; [| split]; intros f Hf; rewrite Run; cbn [evals_to];
    destruct (math_clamp_cases (f / d) 0 1) as (C1 & C2 & C3); try discriminate.
  - rewrite C2 by (apply div_in_unit; assumption). reflexivity.
  - rewrite C1 by (apply div_le_0; assumption). ring.
  - rewrite C3 by (apply div_ge_1; assumption). ring.
Qed.

Lemma anim_tween_A_linear_witness :
  0 < 60 /\
  evals_to (run (FlashlightA.anim (FlashlightA.tween 100 0 linear) 60) 60) 0.
Proof.
  assert (H : 0 < 60) by reflexivity.
  split; [exact H |].
  destruct (anim_tween_A_linear 100 0 60 H) as (_ & _ & H3).
  apply H3. discriminate.
Defined.




(** ** Repeat and track *)

Lemma trunc_succ x : 0 <= x -> trunc (x + 1) = (trunc x + 1)%Z.
Proof.
  intros Hx. unfold trunc.
  assert (E1 : Qle_bool 0 x = true) by (apply Qle_bool_iff; exact Hx).
  assert (E2 : Qle_bool 0 (x + 1) = true) by (apply Qle_bool_iff; lra).
  rewrite E1, E2. apply Qfloor_unique.
  - rewrite inject_Z_plus. change (inject_Z 1) with 1.
    pose proof (Qfloor_le x). lra.
  - rewrite !inject_Z_plus. change (inject_Z 1) with 1.
    pose proof (Qlt_floor x) as F. rewrite inject_Z_plus in F.
    change (inject_Z 1) with 1 in F. lra.
Qed.

(** Within its repeated span, [repeat(a, times)] is periodic with period
    [a.duration] on non-negative frames. *)
Theorem repeat_periodic {T : Type} (a : Animation T) (times f : Q) :
  0 < duration a -> respects a -> 0 <= f ->
  f + duration a < times * duration a ->
  run (repeat a times) (f + duration a) = run (repeat a times) f.
Proof.
  intros Hd Hr Hf Hlt. unfold repeat. cbn [run].
  qle_cases; try (exfalso; lra).
  apply Hr. unfold js_rem.
  assert (Hd0 : ~ duration a == 0) by lra.
  assert (Hq : (f + duration a) / duration a == f / duration a + 1)
    by (field; exact Hd0).
  rewrite (trunc_comp _ _ Hq), trunc_succ.
  - rewrite inject_Z_plus. change (inject_Z 1) with 1. ring.
  - apply Qle_shift_div_l; [exact Hd | lra].
Qed.

Lemma repeat_periodic_witness :
  0 < duration floor_anim /\ respects floor_anim /\ 0 <= 1 /\
  1 + duration floor_anim < 3 * duration floor_anim /\
  run (repeat floor_anim 3) (1 + duration floor_anim) = run (repeat floor_anim 3) 1.
Proof.
  assert (H1 : 0 < duration floor_anim) by reflexivity.
  assert (H2 : 0 <= 1) by discriminate.
  assert (H3 : 1 + duration floor_anim < 3 * duration floor_anim) by reflexivity.
  split; [exact H1 | split; [exact floor_anim_respects | split; [exact H2 | split; [exact H3 |]]]].
  exact (repeat_periodic floor_anim 3 1 H1 floor_anim_respects H2 H3).
Defined.

(** Total duration of the animations of a list. *)
Definition total_duration {T : Type} (l : list (Animation T)) : Q :=
  fold_right (fun a acc => duration a + acc) 0 l.

(** [track(first, ...rest)] lasts the sum of its parts' durations, and
    shows [first] unchanged on its whole span [[.., first.duration]] when
    the later parts have non-negative durations. *)
Theorem track_duration_and_prefix {T : Type} (first : Animation T)
  (rest : list (Animation T)) :
  duration (track first rest) == duration first + total_duration rest /\
  (Forall (fun a => 0 <= duration a) rest ->
   forall f, f <= duration first -> run (track first rest) f = run first f).
Proof.
  revert first. induction rest as [|b rest IH]; intros first.
  - simpl. split; [ring | reflexivity].
  - unfold track. simpl. fold (track (sequence first b) rest).
    destruct (IH (sequence first b)) as [D P]. split.
    + rewrite D. simpl. ring.
    + intros Hall f Hf. inversion Hall as [| x l Hb Hrest]; subst.
      rewrite P by (simpl; first [exact Hrest | lra]).
      unfold sequence. cbn [run]. apply Qle_bool_iff in Hf. rewrite Hf.
      reflexivity.
Qed.

Lemma track_duration_and_prefix_witness :
  Forall (fun a => 0 <= duration a) [tween_0_100_10; tween_0_100_60] /\
  run (track tween_0_100_100 [tween_0_100_10; tween_0_100_60]) 50
  = run tween_0_100_100 50.
Proof.
  assert (H : Forall (fun a => 0 <= duration a) [tween_0_100_10; tween_0_100_60])
    by (repeat constructor; discriminate).
  split; [exact H |].
  apply (proj2 (track_duration_and_prefix tween_0_100_100 _) H). discriminate.
Defined.

(** ** Effect *)

Lemma drive_effect_count (k : Q) (frames : list Q) (n0 : nat) :
  drive_effect k S frames n0 = (n0 + length (filter (fun f => Qeq_bool f k) frames))%nat.
Proof.
  revert n0. induction frames as [|f frames IH]; intros n0; [simpl; lia |].
  unfold drive_effect. simpl. fold (drive_effect k S frames (effect k S f n0)).
  rewrite IH. unfold effect. destruct (Qeq_bool f k); simpl; lia.
Qed.

Lemma sweep_succ n : sweep (S n) = sweep n ++ [inject_Z (Z.of_nat (S n))].
Proof. unfold sweep. rewrite (seq_S (S n) 0), map_app. reflexivity. Qed.

Lemma sweep_hits n k :
  length (filter (fun f => Qeq_bool f (inject_Z (Z.of_nat k))) (sweep n))
  = if Nat.leb k n then 1%nat else 0%nat.
Proof.
  induction n as [|n IH].
  - simpl. destruct (Qeq_bool 0 (inject_Z (Z.of_nat k))) eqn:E.
    + apply Qeq_bool_iff, inject_Z_injective in E. destruct k; simpl in *; lia.
    + destruct k; [exfalso; apply Qeq_bool_neq in E; apply E; reflexivity | reflexivity].
  - rewrite sweep_succ, filter_app, length_app, IH. cbn [filter length].
    destruct (Qeq_bool _ _) eqn:E.
    + apply Qeq_bool_iff in E. apply (proj1 (inject_Z_injective _ _)) in E.
      assert (k = S n) by lia. subst k.
      rewrite (proj2 (Nat.leb_gt (S n) n)) by lia.
      rewrite Nat.leb_refl. reflexivity.
    + apply Qeq_bool_neq in E. rewrite inject_Z_injective in E.
      cbn [length].
      destruct (Nat.leb k n) eqn:L1; destruct (Nat.leb k (S n)) eqn:L2;
        try reflexivity.
      * apply Nat.leb_le in L1. apply Nat.leb_gt in L2. lia.
      * apply Nat.leb_gt in L1. apply Nat.leb_le in L2.
        exfalso. apply E. f_equal. lia.
Qed.

Lemma sweep_integral n x : In x (sweep n) -> exists z, x = inject_Z z.
Proof. unfold sweep. intros H. apply in_map_iff in H. destruct H as [i [<- _]]. eauto. Qed.

(** [effect(keyframe, fx)] runs [fx] once for every driven frame equal to
    the keyframe.  Driven with the integer frames [0..n] it fires exactly
    once when the keyframe is an integer in that range, and never when the
    keyframe is not an integer. *)
Theorem effect_fires_on_keyframe :
  (forall (k : Q) (frames : list Q) (n0 : nat),
     drive_effect k S frames n0
     = (n0 + length (filter (fun f => Qeq_bool f k) frames))%nat) /\
  (forall n k : nat, (k <= n)%nat ->
     drive_effect (inject_Z (Z.of_nat k)) S (sweep n) 0%nat = 1%nat) /\
  (forall (n : nat) (k : Q), ~ inject_Z (Qfloor k) == k ->
     drive_effect k S (sweep n) 0%nat = 0%nat).
Proof.
  split; [exact drive_effect_count | split].
  - intros n k Hk. rewrite drive_effect_count, sweep_hits.
    apply Nat.leb_le in Hk. rewrite Hk. reflexivity.
  - intros n k Hk. rewrite drive_effect_count.
    assert (Hall : forall l, (forall x, In x l -> exists z, x = inject_Z z) ->
                   length (filter (fun f => Qeq_bool f k) l) = 0%nat).
    { induction l as [|x l IH]; intros Hl; [reflexivity |]. cbn -[Qeq_bool].
      destruct (Qeq_bool x k) eqn:E.
      - exfalso. destruct (Hl x (or_introl eq_refl)) as [z ->].
        apply Qeq_bool_iff in E. apply Hk.
        rewrite <- (Qfloor_comp _ _ E), Qfloor_Z. exact E.
      - apply IH. intros y Hy. apply Hl. right. exact Hy. }
    rewrite Hall; [reflexivity | apply sweep_integral].
Qed.

Lemma effect_fires_on_keyframe_witness :
  (100 <= 200)%nat /\
  drive_effect (inject_Z (Z.of_nat 100)) S (sweep 200) 0%nat = 1%nat.
Proof.
  assert (H : (100 <= 200)%nat) by lia.
  split; [exact H |]. exact (proj1 (proj2 effect_fires_on_keyframe) 200%nat 100%nat H).
Defined.

(** ** Job batching *)

Lemma drain_app {Job : Type} (q d : list Job) : drain Job q d = d ++ q.
Proof.
  revert d. induction q as [|j q IH]; intros d; simpl.
  - rewrite app_nil_r. reflexivity.
  - rewrite IH, <- app_assoc. reflexivity.
Qed.

Lemma batch_tick_scheduled {Job : Type} (s : Batch Job) :
  raf s = [TransactFrame] -> batch_tick s = idle (ran s ++ jobs s).
Proof.
  destruct s as [q fl r d]; simpl. intros ->.
  unfold batch_tick, idle. simpl. unfold transactFrame. simpl.
  rewrite drain_app. reflexivity.
Qed.

Lemma withFrames_scheduled {Job : Type} (js : list Job) (s : Batch Job) :
  isFrameScheduled s = true ->
  withFrames js s = mkBatch (jobs s ++ js) true (raf s) (ran s).
Proof.
  revert s. induction js as [|j js IH]; intros s Hs.
  - destruct s; simpl in *. subst. rewrite app_nil_r. reflexivity.
  - unfold withFrames. simpl. fold (withFrames js (withFrame j s)).
    assert (E : withFrame j s = mkBatch (jobs s ++ [j]) true (raf s) (ran s)).
    { unfold withFrame. simpl. rewrite Hs. reflexivity. }
    rewrite E, IH by reflexivity. simpl. rewrite <- app_assoc. reflexivity.
Qed.

(** [withFrame] keeps the module in one of its two resting states: it
    queues the job behind the others without running anything, and a
    rendering tick from a resting state runs the queued jobs in order and
    returns to the idle state. *)
Theorem batching_invariant {Job : Type} :
  (forall d : list Job, batch_inv (idle d)) /\
  (forall (j : Job) s, batch_inv s ->
     batch_inv (withFrame j s) /\ jobs (withFrame j s) = jobs s ++ [j] /\
     ran (withFrame j s) = ran s) /\
  (forall s : Batch Job, batch_inv s -> batch_tick s = idle (ran s ++ jobs s)).
Proof.
  split; [| split].
  - intros d. left. repeat split.
  - intros j [q fl r d] [(H1 & H2 & H3) | (H1 & H2)]; simpl in *; subst.
    + repeat split. right. split; reflexivity.
    + repeat split. right. split; reflexivity.
  - intros [q fl r d] [(H1 & H2 & H3) | (H1 & H2)]; simpl in *; subst.
    + rewrite app_nil_r. reflexivity.
    + apply batch_tick_scheduled. reflexivity.
Qed.

(** Any number of [withFrame] calls from the idle state request a single
    frame; its tick runs every job once, in call order. *)
Theorem withFrames_one_request {Job : Type} (d js : list Job) :
  js <> [] ->
  raf (withFrames js (idle d)) = [TransactFrame] /\
  jobs (withFrames js (idle d)) = js /\
  ran (withFrames js (idle d)) = d /\
  batch_tick (withFrames js (idle d)) = idle (d ++ js).
Proof.
  destruct js as [|j js]; [intros H; exfalso; apply H; reflexivity | intros _].
  assert (E : withFrames (j :: js) (idle d) = mkBatch (j :: js) true [TransactFrame] d).
  { unfold withFrames. simpl. fold (withFrames js (withFrame j (idle d))).
    rewrite withFrames_scheduled by reflexivity. reflexivity. }
  rewrite E. repeat split. apply batch_tick_scheduled. reflexivity.
Qed.

Lemma withFrames_one_request_witness :
  [1; 2]%nat <> [] /\
  batch_tick (withFrames [1; 2]%nat (idle [0]%nat)) = idle [0; 1; 2]%nat.
Proof.
  assert (H : [1; 2]%nat <> []) by discriminate.
  split; [exact H |].
  exact (proj2 (proj2 (proj2 (withFrames_one_request [0]%nat [1; 2]%nat H)))).
Defined.

(** ** Draw loop, while playing *)

Lemma fire_draw_playing tf n now s :
  isPlaying s = true ->
  fire_draw tf n now s
  = mkLoop (start s) (fps s) true (pending s + n)
      (frames s ++ List.repeat (tf (start s) now (fps s)) n).
Proof.
  revert s. induction n as [|n IH]; intros s Hp.
  - destruct s; simpl in *; subst. rewrite Nat.add_0_r, app_nil_r. reflexivity.
  - cbn [fire_draw]. unfold draw_cb. rewrite Hp. cbn [negb].
    rewrite IH by reflexivity. simpl.
    rewrite <- app_assoc. f_equal. lia.
Qed.

Lemma loop_ticks_playing tf nows s :
  isPlaying s = true ->
  loop_ticks tf nows s
  = mkLoop (start s) (fps s) true (pending s)
      (frames s ++ flat_map (fun now => List.repeat (tf (start s) now (fps s)) (pending s)) nows).
Proof.
  revert s. induction nows as [|now nows IH]; intros s Hp.
  - destruct s; simpl in *; subst. rewrite app_nil_r. reflexivity.
  - unfold loop_ticks. simpl. fold (loop_ticks tf nows (loop_tick tf now s)).
    unfold loop_tick. rewrite fire_draw_playing by exact Hp.
    rewrite IH by reflexivity. simpl. rewrite <- app_assoc. reflexivity.
Qed.

Lemma flat_map_repeat_1 {A B : Type} (g : A -> B) (l : list A) :
  flat_map (fun x => List.repeat (g x) 1) l = map g l.
Proof. induction l as [|x l IH]; simpl; [reflexivity | f_equal; exact IH]. Qed.

Lemma loop_started_once tf t0 fps0 nows :
  frames (loop_ticks tf nows (loop_play (draw t0 fps0))) = map (fun now => tf t0 now fps0) nows.
Proof.
  rewrite loop_ticks_playing by reflexivity. simpl.
  apply (flat_map_repeat_1 (fun now => tf t0 now fps0)).
Qed.

(** Each [play()] call requests its own chain of [draw] callbacks, and
    [pause()] does not cancel the one already requested: a loop started
    twice, or started, paused and started again before the next tick,
    calls the user's callback twice per tick, forever. *)
Theorem draw_play_twice tf (t0 fps0 : Q) (nows : list Q) :
  frames (loop_ticks tf nows (loop_play (loop_play (draw t0 fps0))))
    = flat_map (fun now => [tf t0 now fps0; tf t0 now fps0]) nows /\
  frames (loop_ticks tf nows (loop_play (loop_pause (loop_play (draw t0 fps0)))))
    = flat_map (fun now => [tf t0 now fps0; tf t0 now fps0]) nows.
Proof. split; rewrite loop_ticks_playing by reflexivity; reflexivity. Qed.

Lemma map_sorted (g : Q -> Q) (l : list Q) :
  (forall x y, x <= y -> g x <= g y) -> Sorted Qle l -> Sorted Qle (map g l).
Proof.
  intros Hg. induction l as [|x l IH]; intros Hs; simpl; [constructor |].
  apply Sorted_inv in Hs. destruct Hs as [Hs Hh]. constructor; [apply IH, Hs |].
  destruct l as [|y l]; simpl; constructor. apply Hg. inversion Hh. assumption.
Qed.

(** A loop of [src/frame.ts] started once reports one frame per tick,
    [elapsedToFrame(now - start, fps)]; for a positive frame rate and ticks
    in time order the reported frames never go back. *)
Theorem draw_frames_monotone (t0 fps0 : Q) (nows : list Q) :
  0 < fps0 -> Sorted Qle nows ->
  frames (loop_ticks frame_ts_tick_frame nows (loop_play (draw t0 fps0)))
    = map (fun now => elapsedToFrame (now - t0) fps0) nows /\
  Sorted Qle (frames (loop_ticks frame_ts_tick_frame nows (loop_play (draw t0 fps0)))).
Proof.
  intros Hf Hs. rewrite loop_started_once. split; [reflexivity |].
  apply (map_sorted (fun now => frame_ts_tick_frame t0 now fps0)); [| exact Hs].
  intros x y Hxy. unfold frame_ts_tick_frame. apply elapsedToFrame_mono; [exact Hf | lra].
Qed.

Lemma draw_frames_monotone_witness :
  0 < 60 /\ Sorted Qle [0; 33; 50; 50; 1000] /\
  Sorted Qle (frames (loop_ticks frame_ts_tick_frame [0; 33; 50; 50; 1000]
                        (loop_play (draw 0 60)))).
Proof.
  assert (H1 : 0 < 60) by reflexivity.
  assert (H2 : Sorted Qle [0; 33; 50; 50; 1000])
    by (repeat constructor; discriminate).
  split; [exact H1 | split; [exact H2 |]].
  exact (proj2 (draw_frames_monotone 0 60 _ H1 H2)).
Defined.

(** ** Bounded playback *)

Lemma fire_play_expired {T : Type} (a : Animation T) fps0 n now (s : Player) :
  duration a < now - pstart s -> fire_play a fps0 n now s = s.
Proof.
  intros H. revert s H. induction n as [|n IH]; intros s H; [reflexivity |].
  cbn [fire_play]. unfold play_cb.
  assert (E : Qgtb (now - pstart s) (duration a) = true).
  { unfold Qgtb. destruct (Qle_bool _ _) eqn:E; [| reflexivity].
    apply Qle_bool_iff in E. exfalso. lra. }
  rewrite E. apply IH, H.
Qed.

(** Once more time than the animation's duration has elapsed, a tick fires
    the pending callbacks without calling the user's callback or requesting
    another frame; with nothing pending, later ticks change nothing. *)
Theorem play_stops_after_duration {T : Type} (a : Animation T) (fps0 now : Q)
  (s : Player) :
  duration a < now - pstart s ->
  play_tick a fps0 now s = mkPlayer (pstart s) 0 (values s) /\
  (forall nows, play_ticks a fps0 nows (mkPlayer (pstart s) 0 (values s))
                = mkPlayer (pstart s) 0 (values s)).
Proof.
  intros H. split.
  - unfold play_tick. apply fire_play_expired. simpl. exact H.
  - induction nows as [|t nows IH]; [reflexivity |].
    unfold play_ticks. simpl. exact IH.
Qed.

Lemma play_stops_after_duration_witness :
  duration tween_0_100_100 < 150 - pstart (play_start (T:=Q) 0) /\
  play_tick tween_0_100_100 60 150 (play_start 0) = mkPlayer 0 0 [].
Proof.
  assert (H : duration tween_0_100_100 < 150 - pstart (play_start (T:=Q) 0)) by reflexivity.
  split; [exact H |].
  exact (proj1 (play_stops_after_duration tween_0_100_100 60 150 (play_start 0) H)).
Defined.

(** A tick within the animation's duration, with one callback pending,
    records the animation's value at [elapsedToFrame(now - start, fps)] and
    requests the next frame; if evaluating the animation throws, nothing is
    recorded and playback stops for good. *)
Theorem play_tick_in_time {T : Type} (a : Animation T) (fps0 now : Q) (s : Player) :
  ppending s = 1%nat -> now - pstart s <= duration a ->
  (forall v, run a (elapsedToFrame (now - pstart s) fps0) = Ok v ->
     play_tick a fps0 now s = mkPlayer (pstart s) 1 (values s ++ [v])) /\
  (forall e, run a (elapsedToFrame (now - pstart s) fps0) = Throw e ->
     play_tick a fps0 now s = mkPlayer (pstart s) 0 (values s)).
Proof.
  intros Hp Hle. unfold play_tick. rewrite Hp. simpl. unfold play_cb. simpl.
  assert (E : Qgtb (now - pstart s) (duration a) = false).
  { unfold Qgtb. apply Qle_bool_iff in Hle. rewrite Hle. reflexivity. }
  rewrite E. split; intros x Hx; rewrite Hx; reflexivity.
Qed.

Lemma play_tick_in_time_witness :
  ppending (play_start (T:=Q) 0) = 1%nat /\
  33 - pstart (play_start (T:=Q) 0) <= duration tween_0_100_100 /\
  (forall v, run tween_0_100_100 (elapsedToFrame (33 - pstart (play_start (T:=Q) 0)) 60) = Ok v ->
     play_tick tween_0_100_100 60 33 (play_start 0) = mkPlayer 0 1 [v]).
Proof.
  assert (H1 : ppending (play_start (T:=Q) 0) = 1%nat) by reflexivity.
  assert (H2 : 33 - pstart (play_start (T:=Q) 0) <= duration tween_0_100_100) by discriminate.
  split; [exact H1 | split; [exact H2 |]].
  exact (proj1 (play_tick_in_time tween_0_100_100 60 33 (play_start 0) H1 H2)).
Defined.

(** ** Easing through [lerp] *)

(** The first copy's [tween(from, to, easing)] clamps the eased progress
    to [[0, 1]]: whatever the easing, the value stays between [from] and
    [to], so the overshoot of the back easings is cut off (near the start
    [easeInBack] gives [from], near the end [easeOutBack] gives [to]). *)
Theorem tween_A_clamps_easing (from to : Q) :
  (forall (e : Easing) p, exists v, FlashlightA.tween from to e p = Ok v /\
     (from <= to -> from <= v <= to) /\ (to <= from -> to <= v <= from)) /\
  (forall t, 0 < t -> t < back_c1 / (back_c1 + 1) ->
     evals_to (FlashlightA.tween from to easeInBack t) from /\
     evals_to (FlashlightA.tween from to easeOutBack (1 - t)) to).
Proof.
  unfold FlashlightA.tween, FlashlightA.lerp. split.
  - intros e p. rewrite clamp_ok by lra. cbn [bind]. eexists.
    split; [reflexivity |].
    pose proof (math_clamp_bounds (e p) 0 1 ltac:(discriminate)).
    split; intros; split; nra.
  - intros t H0 H1. pose proof (easeInBack_negative t H0 H1) as Hin.
    rewrite (clamp_below (easeInBack t)) by lra.
    assert (Hout : 1 < easeOutBack (1 - t)) by (rewrite easeOutBack_reflect; lra).
    rewrite (clamp_above (easeOutBack (1 - t))) by lra.
    split; cbn [bind evals_to]; ring.
Qed.

(** ** Repeat once *)

Lemma trunc_small q : -1 < q -> q < 1 -> trunc q = 0%Z.
Proof.
  intros H1 H2. unfold trunc. qle_cases.
  - apply Qfloor_unique; change (inject_Z 0) with 0; lra.
  - rewrite (Qfloor_unique (- q) 0); [reflexivity | |];
      change (inject_Z 0) with 0; lra.
Qed.

(** [repeat(a, 1)] agrees with [a] strictly inside [(-duration, duration)]
    (the remainder is the frame itself) and holds [a]'s last value from
    frame [duration] on. *)
Theorem repeat_once {T : Type} (a : Animation T) :
  0 < duration a -> respects a ->
  duration (repeat a 1) == duration a /\
  (forall f, - duration a < f -> f < duration a -> run (repeat a 1) f = run a f) /\
  (forall f, duration a <= f -> run (repeat a 1) f = run a (duration a)).
Proof.
  intros Hd Hr. split; [simpl; ring | split].
  - intros f H1 H2. simpl. qle_cases; [exfalso; lra |].
    apply Hr. unfold js_rem.
    assert (Hq1 : -1 < f / duration a).
    { apply Qlt_shift_div_l; [exact Hd | lra]. }
    assert (Hq2 : f / duration a < 1).
    { apply Qlt_shift_div_r; [exact Hd | lra]. }
    rewrite (trunc_small _ Hq1 Hq2). simpl. ring.
  - intros f H. simpl. qle_cases; [reflexivity | exfalso; lra].
Qed.

Lemma repeat_once_witness :
  0 < duration floor_anim /\ respects floor_anim /\
  run (repeat floor_anim 1) (5 # 2) = run floor_anim (5 # 2).
Proof.
  assert (H1 : 0 < duration floor_anim) by reflexivity.
  split; [exact H1 | split; [exact floor_anim_respects |]].
  apply (proj1 (proj2 (repeat_once floor_anim H1 floor_anim_respects))); reflexivity.
Defined.

(** ** Witnesses of the lerp, tween and delay laws *)

Lemma lerp_B_laws_witness :
  0 <= 100 /\ evals_to (FlashlightB.lerp 0 100 1) 100.
Proof.
  assert (H : 0 <= 100) by discriminate.
  split; [exact H |]. exact (proj1 (proj2 (lerp_B_laws 0 100 H))).
Defined.

Lemma tween_B_linear_laws_witness :
  0 < 60 /\ 0 <= 100 /\
  evals_to (run (FlashlightB.tween 0 100 60 linear) (60 / 2)) ((0 + 100) / 2).
Proof.
  assert (H1 : 0 < 60) by reflexivity.
  assert (H2 : 0 <= 100) by discriminate.
  split; [exact H1 | split; [exact H2 |]].
  exact (proj2 (proj2 (tween_B_linear_laws 0 100 60 H1 H2))).
Defined.

Lemma delay_spec_witness :
  0 <= 10 /\ run (delay tween_0_100_100 10) 50 = run tween_0_100_100 10.
Proof.
  assert (H : 0 <= 10) by discriminate.
  split; [exact H |].
  apply (proj2 (proj2 (proj2 (delay_spec tween_0_100_100 10 H)))). reflexivity.
Defined.
